(** * Transcript normalisation and temporary-file lifecycle of [app.py]

    A shallow embedding of the pure text functions of [src/app.py]
    ([format_transcription], [remove_repeated_words]) and of the two
    transcription flows of [main] (uploaded file, YouTube link), together
    with the properties the specification states about them. *)

From Stdlib Require Import Ascii String DecimalString.
From Stdlib Require Import Floats.SpecFloat.
From Stdlib Require Import Bool Arith NArith ZArith Lia List.
Import ListNotations.

(** ** Python strings *)

Module PyStr.

(** A Python [str] is a sequence of Unicode code points. *)
Definition char := N.
Definition str := list char.

(** String literals of the source, written in ASCII. *)
Fixpoint u (s : string) : str :=
  match s with
  | EmptyString => []
  | String c s' => N_of_ascii c :: u s'
  end.

Definition eqb (a b : str) : bool :=
  if list_eq_dec N.eq_dec a b then true else false.

(** [str.isspace] on one code point: the table CPython uses for
    [str.strip()] and [str.split()] called without arguments. *)
Definition is_space (c : char) : bool :=
  ((9 <=? c) && (c <=? 13)
   || (28 <=? c) && (c <=? 32)
   || (c =? 133) || (c =? 160) || (c =? 5760)
   || (8192 <=? c) && (c <=? 8202)
   || (c =? 8232) || (c =? 8233) || (c =? 8239) || (c =? 8287)
   || (c =? 12288))%N.

Fixpoint lstrip (s : str) : str :=
  match s with
  | [] => []
  | c :: s' => if is_space c then lstrip s' else s
  end.

Definition rstrip (s : str) : str := rev (lstrip (rev s)).

(** [s.strip()] *)
Definition strip (s : str) : str := rstrip (lstrip s).

(** [s.split()]: maximal runs of non-whitespace; [cur] holds the run being
    read, last character first. *)
Fixpoint split_from (cur : str) (s : str) : list str :=
  match s with
  | [] => match cur with [] => [] | _ => [rev cur] end
  | c :: s' =>
      if is_space c
      then match cur with
           | [] => split_from [] s'
           | _ => rev cur :: split_from [] s'
           end
      else split_from (c :: cur) s'
  end.

Definition split (s : str) : list str := split_from [] s.

(** [sep.join(ws)] *)
Fixpoint join (sep : str) (ws : list str) : str :=
  match ws with
  | [] => []
  | [w] => w
  | w :: ws' => w ++ sep ++ join sep ws'
  end.

Definition space : char := 32%N.
Definition newline : char := 10%N.

End PyStr.

Import PyStr.

(** ** [remove_repeated_words] *)

(** The loop [for i, word in enumerate(words)] of the source: [i] is the
    index of [word] in [words]; [words[i - 1]] is only evaluated when
    [i <> 0], so it is an ordinary in-range lookup. *)
Fixpoint cleaned_from (words : list str) (i : nat) (rest : list str)
    (cleaned_words : list str) : list str :=
  match rest with
  | [] => cleaned_words
  | word :: rest' =>
      let cleaned_words' :=
        if (i =? 0) || negb (eqb word (nth (i - 1) words []))
        then cleaned_words ++ [word]
        else cleaned_words in
      cleaned_from words (S i) rest' cleaned_words'
  end.

Definition remove_repeated_words (text : str) : str :=
  let words := split text in
  let cleaned_words := cleaned_from words 0 words [] in
  join [space] cleaned_words.

(** ** Timestamps and their two-decimal rendering *)

(** A timestamp bound is a Python [float]: an IEEE 754 binary64 value, here
    with its exact sign, mantissa and exponent. *)
Definition float := spec_float.

Definition digits (n : N) : str := u (NilZero.string_of_uint (N.to_uint n)).

(** The integer nearest to [m * 2^e * 100], ties to even: the correctly
    rounded decimal conversion behind [format(x, ".2f")]. *)
Definition hundredths (m : positive) (e : Z) : N :=
  let n := (Z.pos m * 100)%Z in
  if (0 <=? e)%Z then Z.to_N (n * 2 ^ e)
  else
    let d := (2 ^ (- e))%Z in
    let q := (n / d)%Z in
    let r := (n mod d)%Z in
    Z.to_N (match (2 * r ?= d)%Z with
            | Lt => q
            | Gt => q + 1
            | Eq => if Z.even q then q else q + 1
            end).

Definition fixed2 (h : N) : str :=
  let frac := (h mod 100)%N in
  digits (h / 100) ++ u "."
    ++ (if (frac <? 10)%N then u "0" else []) ++ digits frac.

Definition sign_prefix (s : bool) : str := if s then u "-" else [].

(** [f"{x:.2f}"] *)
Definition format_2f (x : float) : str :=
  match x with
  | S754_zero s => sign_prefix s ++ u "0.00"
  | S754_infinity s => sign_prefix s ++ u "inf"
  | S754_nan => u "nan"
  | S754_finite s m e => sign_prefix s ++ fixed2 (hundredths m e)
  end.

(** ** [format_transcription] *)

(** One element of [transcription['chunks']]: [chunk["text"]] and
    [chunk.get("timestamp", None)], a pair of floats when present. *)
Record chunk := Chunk {
  text : str;
  timestamp : option (float * float)
}.

(** The recogniser's result; the key ['chunks'] may be missing. *)
Record transcription := Transcription {
  chunks : option (list chunk)
}.

Definition get_chunks (t : transcription) : list chunk :=
  match chunks t with
  | Some cs => cs
  | None => []
  end.

(** The three accumulators of the loop. *)
Record acc := Acc {
  formatted_text : str;
  full_text : str;
  previous_text : str
}.

Definition acc0 : acc := Acc [] [] [].

(** The line appended for one chunk, without its final newline. *)
Definition format_line (c : chunk) : str :=
  match timestamp c with
  | Some (start_time, end_time) =>
      u "[" ++ format_2f start_time ++ u " - " ++ format_2f end_time
        ++ u "] " ++ strip (text c)
  | None => u "[No Timestamp] " ++ strip (text c)
  end.

(** One iteration of the loop body. *)
Definition loop_body (a : acc) (c : chunk) : acc :=
  let formatted_text' := formatted_text a ++ format_line c ++ [newline] in
  if negb (eqb (strip (text c)) (previous_text a))
  then Acc formatted_text'
           (full_text a ++ strip (text c) ++ [space])
           (strip (text c))
  else Acc formatted_text' (full_text a) (previous_text a).

Definition run_loop (a : acc) (cs : list chunk) : acc :=
  fold_left loop_body cs a.

Definition format_transcription (t : transcription) : str * str :=
  let a := run_loop acc0 (get_chunks t) in
  (strip (formatted_text a), strip (full_text a)).

Definition of_chunks (cs : list chunk) : transcription :=
  Transcription (Some cs).

(** Binary64 values used in the examples. *)
Definition f0 : float := S754_zero false.
Definition f1 : float := S754_finite false 4503599627370496 (-52).
Definition f2 : float := S754_finite false 4503599627370496 (-51).
Definition f3 : float := S754_finite false 6755399441055744 (-51).

(** The texts the loop appends to [full_text], in order, when it starts
    with [previous_text = prev]: the same guard as [loop_body]. *)
Fixpoint contributions (prev : str) (cs : list chunk) : list str :=
  match cs with
  | [] => []
  | c :: cs' =>
      if negb (eqb (strip (text c)) prev)
      then strip (text c) :: contributions (strip (text c)) cs'
      else contributions prev cs'
  end.

(** No two neighbours of a list are equal. *)
Fixpoint adjacent_distinct (l : list str) : Prop :=
  match l with
  | [] => True
  | x :: l' =>
      match l' with
      | [] => True
      | y :: _ => x <> y /\ adjacent_distinct l'
      end
  end.

(** The lines of a text: the pieces between newline characters; the empty
    text has no line. *)
Fixpoint split_nl (cur : str) (s : str) : list str :=
  match s with
  | [] => [rev cur]
  | c :: s' =>
      if (c =? newline)%N then rev cur :: split_nl [] s'
      else split_nl (c :: cur) s'
  end.

Definition lines (s : str) : list str :=
  match s with
  | [] => []
  | _ => split_nl [] s
  end.

(** ** Word de-duplication as the specification words it *)

(** Scan left to right, keeping a token unless it equals the immediately
    preceding kept token ([last_kept]; [None] before the first token). *)
Fixpoint keep_tokens (last_kept : option str) (tokens : list str) : list str :=
  match tokens with
  | [] => []
  | t :: tokens' =>
      match last_kept with
      | Some k => if eqb t k then keep_tokens last_kept tokens'
                  else t :: keep_tokens (Some t) tokens'
      | None => t :: keep_tokens (Some t) tokens'
      end
  end.

Definition dedupe_adjacent_words (text : str) : str :=
  join [space] (keep_tokens None (split text)).

(** ** The two transcription flows of [main] *)

Definition path := string.
Bind Scope string_scope with path.

(** Python exceptions, as far as the handlers of the source tell them
    apart: [yt_dlp.utils.DownloadError] and every other [Exception]. *)
Inductive exn :=
| DownloadError (msg : string)
| OtherError (msg : string).

Definition message (e : exn) : string :=
  match e with
  | DownloadError msg => msg
  | OtherError msg => msg
  end.

(** What a run can observe and change: the files on disk, and logs of the
    files it created, of its [os.remove] calls, of the recogniser's
    invocations, of [st.error] messages and of the transcripts shown. *)
Record world := World {
  fs : list path;
  created : list path;
  removed : list path;
  transcribed : list path;
  errors : list string;
  delivered : list (str * str)
}.

Definition start (files : list path) : world :=
  World files [] [] [] [] [].

Inductive outcome (A : Type) :=
| Returned (a : A)
| Raised (e : exn).
Arguments Returned {A} a.
Arguments Raised {A} e.

(** Computations that read and change the world and may raise. *)
Definition M (A : Type) := world -> outcome A * world.

Definition ret {A} (a : A) : M A := fun w => (Returned a, w).

Definition bind {A B} (m : M A) (k : A -> M B) : M B :=
  fun w =>
    match m w with
    | (Returned a, w') => k a w'
    | (Raised e, w') => (Raised e, w')
    end.

Definition raise {A} (e : exn) : M A := fun w => (Raised e, w).

(** [try: m except <class> as e: h e], where [handled] is the class. *)
Definition try_except {A} (m : M A) (handled : exn -> bool) (h : exn -> M A)
  : M A :=
  fun w =>
    match m w with
    | (Returned a, w') => (Returned a, w')
    | (Raised e, w') => if handled e then h e w' else (Raised e, w')
    end.

Notation "x <- m ;; k" := (bind m (fun x => k))
  (at level 61, m at next level, right associativity).
Notation "m ;;; k" := (bind m (fun _ => k))
  (at level 61, right associativity).

Definition mem (p : path) (l : list path) : bool :=
  existsb (String.eqb p) l.

Definition delete (p : path) (l : list path) : list path :=
  filter (fun q => negb (String.eqb p q)) l.

(** A file comes to exist at [p]. *)
Definition create_file (p : path) : M unit :=
  fun w => (Returned tt,
            World (if mem p (fs w) then fs w else p :: fs w)
                  (created w ++ [p]) (removed w) (transcribed w)
                  (errors w) (delivered w)).

(** [os.remove(p)]: raises when there is no such file. *)
Definition os_remove (p : path) : M unit :=
  fun w =>
    if mem p (fs w)
    then (Returned tt,
          World (delete p (fs w)) (created w) (removed w ++ [p])
                (transcribed w) (errors w) (delivered w))
    else (Raised (OtherError "No such file or directory"), w).

(** [st.error(msg)] *)
Definition st_error (msg : string) : M unit :=
  fun w => (Returned tt,
            World (fs w) (created w) (removed w) (transcribed w)
                  (errors w ++ [msg]) (delivered w)).

(** The text areas and download buttons showing both transcripts. *)
Definition show (formatted full : str) : M unit :=
  fun w => (Returned tt,
            World (fs w) (created w) (removed w) (transcribed w)
                  (errors w) (delivered w ++ [(formatted, full)])).

(** An external call that either succeeds or raises. *)
Definition external (r : option exn) : M unit :=
  match r with
  | None => ret tt
  | Some e => raise e
  end.

(** How the external collaborators behave during one run. A download
    that raises leaves no file at its destination (the downloader boundary
    of the specification: the file is populated on success); the display
    calls of Streamlit and [audio_clip.close()] do not raise. *)
Record collaborators := Collaborators {
  (** the name [tempfile.NamedTemporaryFile] picks *)
  temp_name : path;
  (** [temp_file.write(...)] *)
  buffer_write : option exn;
  (** [ydl.download([video_url])] writing to [outtmpl] *)
  ydl_download : string -> path -> option exn;
  (** [AudioFileClip(audio_file)] *)
  clip_open : path -> option exn;
  (** [audio_clip.write_audiofile(wav_file, ...)], and whether a failed
      write leaves a file behind *)
  clip_write : path -> option exn;
  clip_write_partial : bool;
  (** the recogniser [pipe(path)] *)
  recogniser : path -> exn + transcription
}.

Section Flows.

Variable env : collaborators.

(** [pipe(p)] *)
Definition pipe (p : path) : M transcription :=
  fun w =>
    let w' := World (fs w) (created w) (removed w) (transcribed w ++ [p])
                    (errors w) (delivered w) in
    match recogniser env p with
    | inr t => (Returned t, w')
    | inl e => (Raised e, w')
    end.

Definition is_download_error (e : exn) : bool :=
  match e with
  | DownloadError _ => true
  | OtherError _ => false
  end.

Definition any_exception (e : exn) : bool := true.

Definition default_output_path : path := "temp_audio.mp4"%string.

(** [download_audio_youtube(video_url, output_path)]; [None] is Python's
    [None]. *)
Definition download_audio_youtube (video_url : string) (output_path : path)
  : M (option path) :=
  try_except
    (external (ydl_download env video_url output_path) ;;;
     create_file output_path ;;;
     ret (Some output_path))
    is_download_error
    (fun e =>
       st_error (String.append "Error downloading audio from YouTube: " (message e)) ;;;
       ret None).

(** Truth value of [audio_file] in [if audio_file:]. *)
Definition truthy (audio_file : option path) : bool :=
  match audio_file with
  | Some p => negb (String.eqb p "")
  | None => false
  end.

(** The body under ["Transcribe Audio"]: lines 97-121. *)
Definition transcribe_upload : M unit :=
  let temp_file_path := temp_name env in
  create_file temp_file_path ;;;
  external (buffer_write env) ;;;
  transcription <- pipe temp_file_path ;;
  let '(formatted_transcription, full_transcription) :=
    format_transcription transcription in
  show formatted_transcription full_transcription ;;;
  os_remove temp_file_path.

(** [audio_clip.write_audiofile(wav_file, codec='pcm_s16le')] *)
Definition write_audiofile (wav_file : path) : M unit :=
  match clip_write env wav_file with
  | None => create_file wav_file
  | Some e =>
      (if clip_write_partial env then create_file wav_file else ret tt) ;;;
      raise e
  end.

(** The body under ["Transcribe Video"]: lines 131-166. *)
Definition transcribe_youtube (video_url : string) : M unit :=
  try_except
    (audio_file <- download_audio_youtube video_url default_output_path ;;
     if truthy audio_file then
       let audio_file := match audio_file with Some p => p | None => ""%string end in
       external (clip_open env audio_file) ;;;
       let wav_file : path := "temp_audio.wav"%string in
       write_audiofile wav_file ;;;
       transcription <- pipe wav_file ;;
       let '(formatted_transcription, full_transcription) :=
         format_transcription transcription in
       show formatted_transcription full_transcription ;;;
       os_remove audio_file ;;;
       os_remove wav_file
     else ret tt)
    any_exception
    (fun e => st_error (String.append "Error: " (message e))).

End Flows.


(** A run in which no collaborator fails. *)
Definition all_succeed (env : collaborators) (video_url : string) : Prop :=
  buffer_write env = None /\
  (forall p, ydl_download env video_url p = None) /\
  (forall p, clip_open env p = None) /\
  (forall p, clip_write env p = None) /\
  (forall p, exists t, recogniser env p = inr t).

Definition no_transcript : transcription := Transcription None.

(** Collaborators that all succeed; the recogniser answers [t]. *)
Definition healthy (t : transcription) : collaborators :=
  Collaborators "tmpab12cd" None (fun _ _ => None) (fun _ => None)
                (fun _ => None) false (fun _ => inr t).

(** The recogniser raises; everything before it succeeds. *)
Definition recogniser_fails : collaborators :=
  Collaborators "tmpab12cd" None (fun _ _ => None) (fun _ => None)
                (fun _ => None) false
                (fun _ => inl (OtherError "Soundfile is either not in the correct format or is malformed")).



(** A token: non-empty and without whitespace. *)
Definition token (t : str) : Prop :=
  t <> [] /\ forallb (fun c => negb (is_space c)) t = true.

(** The source compares each word with its predecessor in [words]. *)
Fixpoint drop_repeats (prev : option str) (ws : list str) : list str :=
  match ws with
  | [] => []
  | w :: ws' =>
      match prev with
      | Some p => if eqb w p then drop_repeats (Some w) ws'
                  else w :: drop_repeats (Some w) ws'
      | None => w :: drop_repeats (Some w) ws'
      end
  end.

(** Whether a text contains a newline character. *)
Definition has_newline (s : str) : bool := existsb (N.eqb newline) s.

(** A chunk's line followed by its newline, as the loop appends it. *)
Definition line_nl (c : chunk) : str := format_line c ++ [newline].




(** Unfolds one run of the YouTube flow. *)
Ltac unfold_youtube :=
  unfold transcribe_youtube, download_audio_youtube, write_audiofile,
    try_except, bind, create_file, external, pipe, show, os_remove.

(** [main()]: the two tabs run one after the other in one execution of the
    script. [uploaded_file] tells whether a file was uploaded (the widget
    returns [None] otherwise), [transcribe_audio] and [transcribe_video]
    whether the tab's button was pressed; the display calls are left out. *)
Definition main (env : collaborators) (uploaded_file transcribe_audio : bool)
    (video_url : string) (transcribe_video : bool) : M unit :=
  (if uploaded_file
   then if transcribe_audio then transcribe_upload env else ret tt
   else ret tt) ;;;
  (if negb (String.eqb video_url "")
   then if transcribe_video then transcribe_youtube env video_url else ret tt
   else ret tt).

(** A text without whitespace at either end. *)
Definition trimmed (s : str) : Prop :=
  (forall c r, s = c :: r -> is_space c = false)
  /\ (forall c r, s = r ++ [c] -> is_space c = false).

(** * Properties *)

(** ** Strings *)

Lemma eqb_eq (a b : str) : eqb a b = true <-> a = b.
Proof.
  unfold eqb. destruct (list_eq_dec N.eq_dec a b); split; congruence.
Qed.

Lemma eqb_refl (a : str) : eqb a a = true.
Proof. now apply eqb_eq. Qed.

Lemma eqb_neq (a b : str) : eqb a b = false <-> a <> b.
Proof.
  unfold eqb. destruct (list_eq_dec N.eq_dec a b); split; congruence.
Qed.

Lemma forallb_rev {A} (f : A -> bool) (l : list A) :
  forallb f (rev l) = forallb f l.
Proof.
  induction l as [|x l IH]; simpl; [reflexivity|].
  rewrite forallb_app, IH. simpl. rewrite andb_true_r. apply andb_comm.
Qed.

Lemma rev_token (cur : str) :
  cur <> [] -> forallb (fun c => negb (is_space c)) cur = true ->
  token (rev cur).
Proof.
  intros Hne Hall. split.
  - intro H. apply Hne. rewrite <- (rev_involutive cur), H. reflexivity.
  - now rewrite forallb_rev.
Qed.

Lemma split_from_tokens (s cur : str) :
  forallb (fun c => negb (is_space c)) cur = true ->
  Forall token (split_from cur s).
Proof.
  revert cur. induction s as [|c s IH]; intros cur Hcur; simpl.
  - destruct cur as [|x cur]; constructor; [|constructor].
    apply rev_token; [discriminate|assumption].
  - destruct (is_space c) eqn:Hc.
    + destruct cur as [|x cur]; [now apply IH|].
      constructor; [apply rev_token; [discriminate|assumption]|now apply IH].
    + apply IH. simpl. now rewrite Hc.
Qed.

Lemma split_tokens (s : str) : Forall token (split s).
Proof. now apply split_from_tokens. Qed.

Lemma split_from_word (w cur rest : str) :
  forallb (fun c => negb (is_space c)) w = true ->
  split_from cur (w ++ rest) = split_from (rev w ++ cur) rest.
Proof.
  revert cur. induction w as [|c w IH]; intros cur Hw; simpl in *.
  - reflexivity.
  - apply andb_true_iff in Hw as [Hc Hw].
    apply negb_true_iff in Hc. rewrite Hc, (IH _ Hw), <- app_assoc.
    reflexivity.
Qed.

(** Splitting the single-space join of tokens gives the tokens back. *)
Lemma split_join (ws : list str) :
  Forall token ws -> split (join [space] ws) = ws.
Proof.
  unfold split. induction 1 as [|w ws [Hne Hw] Hws IH]; [reflexivity|].
  assert (Hrev : rev w <> []).
  { intro H. apply Hne. rewrite <- (rev_involutive w), H. reflexivity. }
  destruct ws as [|w' ws].
  - simpl. rewrite <- (app_nil_r w) at 1.
    rewrite (split_from_word _ _ _ Hw), app_nil_r. simpl.
    destruct (rev w) eqn:E; [congruence|].
    rewrite <- E, rev_involutive. reflexivity.
  - change (join [space] (w :: w' :: ws))
      with (w ++ space :: join [space] (w' :: ws)).
    rewrite (split_from_word _ _ _ Hw), app_nil_r.
    change (split_from (rev w) (space :: join [space] (w' :: ws)))
      with (match rev w with
            | [] => split_from [] (join [space] (w' :: ws))
            | _ => rev (rev w) :: split_from [] (join [space] (w' :: ws))
            end).
    destruct (rev w) eqn:E; [congruence|].
    rewrite <- E, rev_involutive, IH. reflexivity.
Qed.

(** ** Word de-duplication *)

Lemma nth_pred_length (l : list str) (d : str) :
  nth (length l - 1) l d = last l d.
Proof.
  induction l as [|x [|y l] IHl]; try reflexivity.
  replace (length (x :: y :: l) - 1)
    with (S (length (y :: l) - 1)) by (simpl; lia).
  exact IHl.
Qed.

Lemma cleaned_from_drop_repeats (pre rest cleaned : list str) :
  cleaned_from (pre ++ rest) (length pre) rest cleaned
  = cleaned ++ drop_repeats (match pre with
                            | [] => None
                            | _ => Some (last pre [])
                            end) rest.
Proof.
  revert pre cleaned. induction rest as [|w rest IH]; intros pre cleaned.
  - simpl. now rewrite app_nil_r.
  - assert (Hnext : cleaned_from (pre ++ w :: rest) (S (length pre)) rest
                    = cleaned_from ((pre ++ [w]) ++ rest)
                        (length (pre ++ [w])) rest).
    { rewrite <- app_assoc, length_app, Nat.add_comm. reflexivity. }
    assert (Hlast : match pre ++ [w] with
                    | [] => None
                    | _ => Some (last (pre ++ [w]) [])
                    end = Some w).
    { rewrite last_last. destruct pre; reflexivity. }
    simpl. rewrite Hnext, IH, Hlast.
    destruct pre as [|p pre].
    + simpl. now rewrite <- app_assoc.
    + assert (Hnth : nth (length (p :: pre) - 1) ((p :: pre) ++ w :: rest) []
                     = last (p :: pre) []).
      { rewrite app_nth1 by (simpl; lia). apply nth_pred_length. }
      change (length (p :: pre) =? 0) with false. rewrite orb_false_l, Hnth.
      destruct (eqb w (last (p :: pre) [])); simpl.
      * reflexivity.
      * now rewrite <- app_assoc.
Qed.

Lemma drop_repeats_keep_tokens (k : option str) (ws : list str) :
  drop_repeats k ws = keep_tokens k ws.
Proof.
  revert k. induction ws as [|w ws IH]; intros k; simpl; [reflexivity|].
  destruct k as [p|]; [|now rewrite IH].
  destruct (eqb w p) eqn:E; rewrite IH; [|reflexivity].
  apply eqb_eq in E. now subst.
Qed.

Lemma keep_tokens_idem (k : option str) (ws : list str) :
  keep_tokens k (keep_tokens k ws) = keep_tokens k ws.
Proof.
  revert k. induction ws as [|w ws IH]; intros k; simpl; [reflexivity|].
  destruct k as [p|].
  - destruct (eqb w p) eqn:E; [apply IH|].
    simpl. rewrite E, IH. reflexivity.
  - simpl. rewrite IH. reflexivity.
Qed.

Lemma keep_tokens_Forall (P : str -> Prop) (k : option str) (ws : list str) :
  Forall P ws -> Forall P (keep_tokens k ws).
Proof.
  intros H. revert k. induction H as [|w ws Hw Hws IH]; intros k; simpl.
  - constructor.
  - destruct k as [p|]; [destruct (eqb w p)|]; auto.
Qed.

Lemma split_from_concat (s cur : str) :
  concat (split_from cur s)
  = rev cur ++ filter (fun c => negb (is_space c)) s.
Proof.
  revert cur. induction s as [|c s IH]; intros cur; simpl.
  - destruct cur; simpl; now rewrite ?app_nil_r.
  - destruct (is_space c) eqn:Hc; simpl.
    + destruct cur as [|x cur]; simpl; rewrite IH; reflexivity.
    + rewrite IH. simpl. now rewrite <- app_assoc.
Qed.

Lemma remove_repeated_words_keep (text : str) :
  remove_repeated_words text = dedupe_adjacent_words text.
Proof.
  unfold remove_repeated_words, dedupe_adjacent_words.
  pose proof (cleaned_from_drop_repeats [] (split text) []) as H.
  simpl in H. rewrite H. now rewrite drop_repeats_keep_tokens.
Qed.

(** C6: [remove_repeated_words] splits its input into the maximal
    whitespace-free tokens (all non-whitespace characters, in order), keeps a
    token exactly when it differs from the previously kept one, and joins
    the kept tokens with single spaces; "the the cat sat sat down" becomes
    "the cat sat down". *)
Theorem remove_repeated_words_spec (text : str) :
  Forall token (split text)
  /\ concat (split text) = filter (fun c => negb (is_space c)) text
  /\ remove_repeated_words text
     = join [space] (keep_tokens None (split text))
  /\ remove_repeated_words (u "the the cat sat sat down")
     = u "the cat sat down".
Proof.
  split; [apply split_tokens|].
  split; [apply (split_from_concat text [])|].
  split; [apply remove_repeated_words_keep|reflexivity].
Qed.

(** C7: [remove_repeated_words] is idempotent. *)
Theorem remove_repeated_words_idempotent (s : str) :
  remove_repeated_words (remove_repeated_words s) = remove_repeated_words s.
Proof.
  rewrite !remove_repeated_words_keep. unfold dedupe_adjacent_words.
  rewrite split_join by (apply keep_tokens_Forall, split_tokens).
  now rewrite keep_tokens_idem.
Qed.

(** ** Trimming *)

Lemma lstrip_app_nil (x y : str) :
  lstrip x = [] -> lstrip (x ++ y) = lstrip y.
Proof.
  induction x as [|c x IH]; simpl; [reflexivity|].
  destruct (is_space c); [exact IH|discriminate].
Qed.

Lemma lstrip_app_cons (x y : str) :
  lstrip x <> [] -> lstrip (x ++ y) = lstrip x ++ y.
Proof.
  induction x as [|c x IH]; simpl; [congruence|].
  destruct (is_space c); [exact IH|reflexivity].
Qed.

(** [rstrip] read from the front of the string. *)
Lemma rstrip_cons (c : char) (s : str) :
  rstrip (c :: s)
  = match rstrip s with
    | [] => if is_space c then [] else [c]
    | _ => c :: rstrip s
    end.
Proof.
  unfold rstrip. simpl rev at 2.
  destruct (lstrip (rev s)) as [|y l] eqn:E.
  - rewrite (lstrip_app_nil _ [c] E). simpl. now destruct (is_space c).
  - rewrite lstrip_app_cons by congruence. rewrite E, rev_app_distr.
    assert (R : rev (y :: l) <> []).
    { intro R. apply (f_equal (@length _)) in R.
      rewrite length_rev in R. discriminate. }
    change (rev [c]) with [c].
    destruct (rev (y :: l)); [congruence|reflexivity].
Qed.

Lemma rstrip_app (a b : str) :
  rstrip b <> [] -> rstrip (a ++ b) = a ++ rstrip b.
Proof.
  intros Hb. induction a as [|c a IH]; [reflexivity|].
  simpl app. rewrite rstrip_cons, IH.
  destruct (a ++ rstrip b) eqn:E; [|reflexivity].
  apply app_eq_nil in E. tauto.
Qed.

Lemma rstrip_nonspace (c : char) (s : str) :
  is_space c = false -> rstrip (c :: s) = c :: rstrip s.
Proof.
  intros Hc. rewrite rstrip_cons, Hc. now destruct (rstrip s).
Qed.

Lemma rstrip_newline (s : str) : rstrip (s ++ [newline]) = rstrip s.
Proof.
  unfold rstrip. rewrite rev_app_distr. reflexivity.
Qed.

(** [rstrip] only removes whitespace from the end. *)
Lemma rstrip_prefix (s : str) :
  exists t, s = rstrip s ++ t /\ forallb is_space t = true.
Proof.
  induction s as [|c s (t & Hs & Ht)].
  - now exists [].
  - rewrite rstrip_cons. destruct (rstrip s) as [|y l] eqn:E.
    + destruct (is_space c) eqn:Hc.
      * exists (c :: s). split; [reflexivity|].
        simpl in Hs. subst t. simpl. now rewrite Hc.
      * exists t. simpl in Hs. subst t. now split.
    + exists t. split; [|exact Ht]. rewrite Hs at 1. reflexivity.
Qed.

Lemma has_newline_app (a b : str) :
  has_newline (a ++ b) = has_newline a || has_newline b.
Proof. apply existsb_app. Qed.

Lemma has_newline_rstrip (s : str) :
  has_newline s = false -> has_newline (rstrip s) = false.
Proof.
  destruct (rstrip_prefix s) as (t & Hs & _). intros H.
  rewrite Hs, has_newline_app in H. now apply orb_false_iff in H.
Qed.

(** ** Lines *)

Lemma split_nl_line (l cur : str) :
  has_newline l = false -> split_nl cur l = [rev cur ++ l].
Proof.
  revert cur. induction l as [|c l IH]; intros cur H; simpl.
  - now rewrite app_nil_r.
  - change (has_newline (c :: l))
      with ((newline =? c)%N || has_newline l) in H.
    apply orb_false_iff in H as [Hc Hl].
    rewrite N.eqb_sym, Hc, (IH _ Hl). simpl. now rewrite <- app_assoc.
Qed.

Lemma split_nl_app (l cur rest : str) :
  has_newline l = false ->
  split_nl cur (l ++ newline :: rest) = (rev cur ++ l) :: split_nl [] rest.
Proof.
  revert cur. induction l as [|c l IH]; intros cur H; simpl.
  - now rewrite app_nil_r.
  - change (has_newline (c :: l))
      with ((newline =? c)%N || has_newline l) in H.
    apply orb_false_iff in H as [Hc Hl].
    rewrite N.eqb_sym, Hc, (IH _ Hl). simpl. now rewrite <- app_assoc.
Qed.

(** The lines of newline-terminated lines followed by a last line. *)
Lemma split_nl_lines (ls : list str) (l : str) :
  Forall (fun x => has_newline x = false) ls -> has_newline l = false ->
  split_nl [] (concat (map (fun x => x ++ [newline]) ls) ++ l) = ls ++ [l].
Proof.
  induction 1 as [|x ls Hx Hls IH]; intros Hl; simpl.
  - now rewrite split_nl_line.
  - rewrite <- !app_assoc. simpl.
    rewrite (split_nl_app _ [] _ Hx), IH by assumption. reflexivity.
Qed.

(** ** Rendering of timestamps and lines *)

Lemma has_newline_uint (d : Decimal.uint) :
  has_newline (u (NilEmpty.string_of_uint d)) = false.
Proof. induction d; simpl; auto. Qed.

Lemma has_newline_digits (n : N) : has_newline (digits n) = false.
Proof.
  unfold digits, NilZero.string_of_uint.
  destruct (N.to_uint n); try apply has_newline_uint. reflexivity.
Qed.

Lemma has_newline_format_2f (x : float) : has_newline (format_2f x) = false.
Proof.
  destruct x as [s|s| |s m e];
    try reflexivity; try (destruct s; reflexivity).
  unfold format_2f, fixed2. rewrite !has_newline_app, !has_newline_digits.
  destruct s; destruct (_ <? 10)%N; reflexivity.
Qed.

(** Every line opens with a bracket, whatever the chunk. *)
Lemma format_line_bracket (c : chunk) :
  exists r, format_line c = 91%N :: r.
Proof.
  unfold format_line. destruct (timestamp c) as [[a b]|]; simpl; eauto.
Qed.

Lemma has_newline_format_line (c : chunk) :
  has_newline (format_line c) = has_newline (strip (text c)).
Proof.
  unfold format_line. destruct (timestamp c) as [[a b]|].
  - rewrite !has_newline_app, !has_newline_format_2f. reflexivity.
  - rewrite has_newline_app. reflexivity.
Qed.

(** ** The loop of [format_transcription] *)

Lemma run_loop_formatted (cs : list chunk) (a : acc) :
  formatted_text (run_loop a cs)
  = formatted_text a ++ concat (map line_nl cs).
Proof.
  revert a. induction cs as [|c cs IH]; intros a; simpl.
  - now rewrite app_nil_r.
  - rewrite IH. unfold loop_body, line_nl.
    destruct (negb _); simpl; now rewrite <- !app_assoc.
Qed.

Lemma run_loop_full (cs : list chunk) (a : acc) :
  full_text (run_loop a cs)
  = full_text a
    ++ concat (map (fun t => t ++ [space]) (contributions (previous_text a) cs)).
Proof.
  revert a. induction cs as [|c cs IH]; intros a; simpl.
  - now rewrite app_nil_r.
  - rewrite IH. unfold loop_body.
    destruct (negb _); simpl; now rewrite <- ?app_assoc.
Qed.

Lemma contributions_head (cs : list chunk) (prev : str) :
  match contributions prev cs with
  | [] => True
  | t :: _ => t <> prev
  end.
Proof.
  revert prev. induction cs as [|c cs IH]; intros prev; simpl; [exact I|].
  destruct (eqb (strip (text c)) prev) eqn:E; simpl.
  - apply IH.
  - now apply eqb_neq.
Qed.

Lemma contributions_distinct (cs : list chunk) (prev : str) :
  adjacent_distinct (contributions prev cs).
Proof.
  revert prev. induction cs as [|c cs IH]; intros prev; simpl; [exact I|].
  destruct (negb _); [|apply IH].
  pose proof (contributions_head cs (strip (text c))) as Hh.
  pose proof (IH (strip (text c))) as Hd.
  simpl. destruct (contributions (strip (text c)) cs); [exact I|].
  split; [congruence|exact Hd].
Qed.

Lemma concat_line_nl_bracket (c : chunk) (cs : list chunk) :
  exists r, concat (map line_nl (c :: cs)) = 91%N :: r.
Proof.
  destruct (format_line_bracket c) as (r & Hr).
  simpl. unfold line_nl at 1. rewrite Hr. simpl. eauto.
Qed.

Lemma rstrip_format_line (c : chunk) :
  exists r, rstrip (format_line c) = 91%N :: r.
Proof.
  destruct (format_line_bracket c) as (r & Hr).
  rewrite Hr, rstrip_nonspace by reflexivity. eauto.
Qed.

(** The formatted transcript of a non-empty chunk list: every line but the
    last as the loop wrote it, the last one without trailing whitespace. *)
Lemma formatted_snoc (init : list chunk) (c : chunk) :
  fst (format_transcription (of_chunks (init ++ [c])))
  = concat (map line_nl init) ++ rstrip (format_line c).
Proof.
  unfold format_transcription, of_chunks, get_chunks. simpl fst. simpl chunks.
  rewrite run_loop_formatted. simpl formatted_text. simpl app.
  assert (Hl : lstrip (concat (map line_nl (init ++ [c])))
               = concat (map line_nl (init ++ [c]))).
  { destruct init as [|c0 init].
    - destruct (concat_line_nl_bracket c []) as (r & Hr).
      simpl app. now rewrite Hr.
    - destruct (concat_line_nl_bracket c0 (init ++ [c])) as (r & Hr).
      simpl app. now rewrite Hr. }
  unfold strip. rewrite Hl, map_app, concat_app. simpl. rewrite app_nil_r.
  destruct (rstrip_format_line c) as (r & Hr).
  unfold line_nl at 2.
  rewrite rstrip_app; rewrite rstrip_newline; [reflexivity|].
  rewrite Hr. discriminate.
Qed.

Lemma lines_formatted_snoc (init : list chunk) (c : chunk) :
  (forall x, In x (init ++ [c]) -> has_newline (strip (text x)) = false) ->
  lines (fst (format_transcription (of_chunks (init ++ [c]))))
  = map format_line init ++ [rstrip (format_line c)].
Proof.
  intros H. rewrite formatted_snoc.
  destruct (rstrip_format_line c) as (r & Hr).
  assert (Hne : exists x s, concat (map line_nl init) ++ rstrip (format_line c)
                            = x :: s).
  { rewrite Hr. destruct (concat (map line_nl init)); simpl; eauto. }
  destruct Hne as (x & s & Hxs). unfold lines. rewrite Hxs, <- Hxs.
  replace (map line_nl init)
    with (map (fun l => l ++ [newline]) (map format_line init))
    by (rewrite map_map; reflexivity).
  apply split_nl_lines.
  - apply Forall_forall. intros l Hin. apply in_map_iff in Hin as (y & <- & Hy).
    rewrite has_newline_format_line. apply H, in_or_app. now left.
  - apply has_newline_rstrip. rewrite has_newline_format_line.
    apply H, in_or_app. right. now left.
Qed.

Lemma formatted_line_count (cs : list chunk) :
  (forall c, In c cs -> has_newline (strip (text c)) = false) ->
  length (lines (fst (format_transcription (of_chunks cs)))) = length cs.
Proof.
  intros H. destruct cs as [|c0 cs0] using rev_ind; [reflexivity|].
  rewrite (lines_formatted_snoc _ _ H).
  now rewrite !length_app, length_map.
Qed.

(** ** Claims on [format_transcription] *)




(** C3: the flat transcript is the trimmed concatenation of the accepted
    chunk texts, each followed by one space; a chunk's trimmed text is
    accepted only if it differs from the previously accepted one, so no two
    consecutive accepted texts are equal. *)
Theorem flat_no_adjacent_duplicates (cs : list chunk) :
  snd (format_transcription (of_chunks cs))
  = strip (concat (map (fun t => t ++ [space]) (contributions [] cs)))
  /\ adjacent_distinct (contributions [] cs)
  /\ (forall (a : acc) (c : chunk),
        (strip (text c) = previous_text a ->
         full_text (loop_body a c) = full_text a
         /\ previous_text (loop_body a c) = previous_text a)
        /\ (strip (text c) <> previous_text a ->
            full_text (loop_body a c)
            = full_text a ++ strip (text c) ++ [space]
            /\ previous_text (loop_body a c) = strip (text c))).
Proof.
  split; [|split].
  - unfold format_transcription, of_chunks, get_chunks. simpl.
    now rewrite run_loop_full.
  - apply contributions_distinct.
  - intros a c. unfold loop_body. split; intros E.
    + rewrite E, eqb_refl. now split.
    + apply eqb_neq in E. rewrite E. now split.
Qed.

(** C9: without chunks both transcripts are empty, whether the chunk list
    is empty or the key is missing. *)
Theorem format_transcription_empty :
  format_transcription (of_chunks []) = ([], [])
  /\ format_transcription (Transcription None) = ([], []).
Proof. split; reflexivity. Qed.

Lemma contributions_leading_blank (pre rest : list chunk) :
  Forall (fun c => strip (text c) = []) pre ->
  contributions [] (pre ++ rest) = contributions [] rest.
Proof.
  induction 1 as [|c pre Hc Hpre IH]; [reflexivity|].
  simpl. rewrite Hc. exact IH.
Qed.

Lemma run_loop_previous_blank (pre : list chunk) (a : acc) :
  Forall (fun c => strip (text c) = []) pre ->
  previous_text a = [] -> previous_text (run_loop a pre) = [].
Proof.
  intros H. revert a. induction H as [|c pre Hc Hpre IH]; intros a Ha.
  - exact Ha.
  - simpl. apply IH. unfold loop_body. rewrite Hc, Ha. reflexivity.
Qed.

(** C10: a leading run of chunks whose texts trim to the empty string
    leaves the flat transcript as if they were absent, while each of them
    still gets its own (non-empty) line in the formatted text; in
    particular the first chunk counts for the flat transcript only if its
    trimmed text is not empty. *)
Theorem leading_blank_chunks (pre rest : list chunk) :
  Forall (fun c => strip (text c) = []) pre ->
  snd (format_transcription (of_chunks (pre ++ rest)))
  = snd (format_transcription (of_chunks rest))
  /\ full_text (run_loop acc0 pre) = []
  /\ previous_text (run_loop acc0 pre) = []
  /\ formatted_text (run_loop acc0 (pre ++ rest))
     = concat (map line_nl pre) ++ formatted_text (run_loop acc0 rest)
  /\ length (lines (fst (format_transcription (of_chunks pre)))) = length pre.
Proof.
  intros H. split; [|split; [|split; [|split]]].
  - unfold format_transcription, of_chunks, get_chunks. simpl.
    now rewrite !run_loop_full, contributions_leading_blank.
  - rewrite run_loop_full.
    rewrite <- (app_nil_r pre), contributions_leading_blank by assumption.
    reflexivity.
  - now apply run_loop_previous_blank.
  - rewrite !run_loop_formatted, map_app, concat_app. reflexivity.
  - apply formatted_line_count. intros c Hc.
    rewrite Forall_forall in H. now rewrite (H c Hc).
Qed.

Lemma leading_blank_chunks_witness :
  let pre := [Chunk (u "  ") None; Chunk [] (Some (f0, f1))] in
  let rest := [Chunk (u "hello") (Some (f1, f2))] in
  snd (format_transcription (of_chunks (pre ++ rest)))
  = snd (format_transcription (of_chunks rest))
  /\ full_text (run_loop acc0 pre) = []
  /\ previous_text (run_loop acc0 pre) = []
  /\ formatted_text (run_loop acc0 (pre ++ rest))
     = concat (map line_nl pre) ++ formatted_text (run_loop acc0 rest)
  /\ length (lines (fst (format_transcription (of_chunks pre)))) = length pre.
Proof.
  apply leading_blank_chunks.
  repeat constructor.
Defined.

(** ** Two-decimal rendering *)






(** ** Files *)

Lemma mem_delete (p q : path) (l : list path) :
  mem q (delete p l) = negb (String.eqb p q) && mem q l.
Proof.
  unfold mem, delete. induction l as [|x l IH]; simpl.
  - now rewrite andb_false_r.
  - destruct (String.eqb p x) eqn:Epx; simpl; rewrite IH.
    + apply String.eqb_eq in Epx. subst x.
      rewrite (String.eqb_sym q p).
      destruct (String.eqb p q); reflexivity.
    + destruct (String.eqb q x) eqn:Eqx; simpl; [|reflexivity].
      apply String.eqb_eq in Eqx. subst x. now rewrite Epx.
Qed.

Lemma mem_delete_same (p : path) (l : list path) : mem p (delete p l) = false.
Proof. now rewrite mem_delete, String.eqb_refl. Qed.

Lemma mem_create (p : path) (l : list path) :
  mem p (if mem p l then l else p :: l) = true.
Proof.
  destruct (mem p l) eqn:E; [exact E|].
  unfold mem. simpl. now rewrite String.eqb_refl.
Qed.

Lemma mem_create_other (p q : path) (l : list path) :
  mem q l = true -> mem q (if mem p l then l else p :: l) = true.
Proof.
  intros H. destruct (mem p l); [exact H|].
  unfold mem in *. simpl. now rewrite H, orb_true_r.
Qed.

(** ** The flows, stage by stage *)

Section Runs.

Variable env : collaborators.
Variable video_url : string.
Variable files : list path.

(** Upload flow when no collaborator fails. *)
Lemma upload_success (t : transcription) :
  buffer_write env = None ->
  recogniser env (temp_name env) = inr t ->
  transcribe_upload env (start files)
  = (Returned tt,
     World (delete (temp_name env)
              (if mem (temp_name env) files then files
               else temp_name env :: files))
           [temp_name env] [temp_name env] [temp_name env] []
           [format_transcription t]).
Proof.
  intros Hw Hr. unfold transcribe_upload, bind, create_file, external, pipe.
  simpl. rewrite Hw, Hr. simpl.
  unfold show, os_remove. simpl. rewrite mem_create. reflexivity.
Qed.

(** Upload flow when the recogniser raises. *)
Lemma upload_recogniser_raises (e : exn) :
  buffer_write env = None ->
  recogniser env (temp_name env) = inl e ->
  transcribe_upload env (start files)
  = (Raised e,
     World (if mem (temp_name env) files then files
            else temp_name env :: files)
           [temp_name env] [] [temp_name env] [] []).
Proof.
  intros Hw Hr. unfold transcribe_upload, bind, create_file, external, pipe.
  simpl. rewrite Hw, Hr. reflexivity.
Qed.

(** YouTube flow when no collaborator fails. *)
Lemma youtube_success (t : transcription) :
  ydl_download env video_url default_output_path = None ->
  clip_open env default_output_path = None ->
  clip_write env "temp_audio.wav"%string = None ->
  recogniser env "temp_audio.wav"%string = inr t ->
  transcribe_youtube env video_url (start files)
  = (Returned tt,
     World (delete "temp_audio.wav"%string (delete default_output_path
              (let fs1 := if mem default_output_path files then files else default_output_path :: files in
               if mem "temp_audio.wav"%string fs1 then fs1 else "temp_audio.wav"%string :: fs1)))
           [default_output_path; "temp_audio.wav"%string] [default_output_path; "temp_audio.wav"%string] ["temp_audio.wav"%string] [] [format_transcription t]).
Proof.
  intros Hd Ho Hc Hr.
  unfold transcribe_youtube, download_audio_youtube, write_audiofile,
    try_except, bind, create_file, external, pipe.
  rewrite Hd. simpl. rewrite Ho. simpl.
  rewrite Hc. simpl. rewrite Hr. simpl.
  unfold show, os_remove, bind. simpl.
  rewrite (mem_create_other "temp_audio.wav"%string default_output_path _ (mem_create default_output_path files)). simpl.
  rewrite mem_delete, mem_create. reflexivity.
Qed.



(** YouTube flow when writing the WAV file fails. *)
Lemma youtube_write_raises (e : exn) :
  ydl_download env video_url default_output_path = None ->
  clip_open env default_output_path = None ->
  clip_write env "temp_audio.wav"%string = Some e ->
  let w := snd (transcribe_youtube env video_url (start files)) in
  fst (transcribe_youtube env video_url (start files)) = Returned tt
  /\ transcribed w = [] /\ removed w = []
  /\ errors w = [String.append "Error: " (message e)]
  /\ mem default_output_path (fs w) = true.
Proof.
  intros Hd Ho Hc.
  unfold transcribe_youtube, download_audio_youtube, write_audiofile,
    try_except, bind, create_file, external.
  rewrite Hd. simpl. rewrite Ho. simpl. rewrite Hc.
  destruct (clip_write_partial env); simpl; repeat split;
    try apply mem_create.
  apply mem_create_other, mem_create.
Qed.


End Runs.

(** ** Claims on the temporary files *)







(** C5 on the code: whatever the collaborators, the link and the files on
    disk, the YouTube flow only ever creates "temp_audio.mp4" and
    "temp_audio.wav"; two runs on different links, each succeeding, create
    and remove the very same two paths, whereas the upload flow uses the
    name [tempfile] picked for the run. *)
Theorem youtube_paths_fixed :
  (forall env video_url files,
      incl (created (snd (transcribe_youtube env video_url (start files))))
           ["temp_audio.mp4"%string; "temp_audio.wav"%string])
  /\ (let env := healthy no_transcript in
      let r1 := transcribe_youtube env "https://youtu.be/first" (start []) in
      let r2 := transcribe_youtube env "https://youtu.be/second" (start []) in
      created (snd r1) = ["temp_audio.mp4"%string; "temp_audio.wav"%string]
      /\ created (snd r2) = created (snd r1)
      /\ removed (snd r2) = removed (snd r1))
  /\ (forall env files,
         created (snd (transcribe_upload env (start files)))
         = [temp_name env]).
Proof.
  split; [|split].
  - intros env video_url files p.
    unfold_youtube.
    destruct (ydl_download env video_url default_output_path) as [[m|m]|];
      simpl; try tauto.
    destruct (clip_open env default_output_path) as [e|]; simpl;
      [tauto|].
    destruct (clip_write env "temp_audio.wav") as [e|]; simpl.
    + destruct (clip_write_partial env); simpl; tauto.
    + destruct (recogniser env "temp_audio.wav") as [e|t]; simpl; [tauto|].
      repeat match goal with
             | |- context [if ?b then _ else _] => destruct b; simpl
             end; tauto.
  - repeat split; reflexivity.
  - intros env files. unfold transcribe_upload, bind, create_file, external,
      pipe, show, os_remove. simpl.
    destruct (buffer_write env); simpl; [reflexivity|].
    destruct (recogniser env (temp_name env)); simpl; [reflexivity|].
    repeat match goal with
           | |- context [if ?b then _ else _] => destruct b; simpl
           end; reflexivity.
Qed.

(** * Further properties of the code *)

(** ** Trimming, continued *)

Lemma lstrip_head (s : str) (c : char) (r : str) :
  lstrip s = c :: r -> is_space c = false.
Proof.
  induction s as [|x s IH]; simpl; [discriminate|].
  destruct (is_space x) eqn:Hx; [exact IH|].
  intros E. injection E as <- _. exact Hx.
Qed.

Lemma lstrip_fixed (c : char) (r : str) :
  is_space c = false -> lstrip (c :: r) = c :: r.
Proof. intros H. simpl. now rewrite H. Qed.

Lemma lstrip_idem (s : str) : lstrip (lstrip s) = lstrip s.
Proof.
  destruct (lstrip s) as [|c r] eqn:E; [reflexivity|].
  apply lstrip_fixed, (lstrip_head s c r E).
Qed.

Lemma rstrip_idem (s : str) : rstrip (rstrip s) = rstrip s.
Proof. unfold rstrip. now rewrite rev_involutive, lstrip_idem. Qed.

Lemma rstrip_last (s : str) (c : char) (r : str) :
  rstrip s = r ++ [c] -> is_space c = false.
Proof.
  unfold rstrip. intros E. apply (f_equal (@rev char)) in E.
  rewrite rev_involutive, rev_app_distr in E. simpl in E.
  exact (lstrip_head _ _ _ E).
Qed.

Lemma strip_trimmed (s : str) : trimmed (strip s).
Proof.
  unfold strip. split; intros c r E.
  - destruct (lstrip s) as [|x l] eqn:L; [discriminate|].
    pose proof (lstrip_head s x l L) as Hx.
    rewrite (rstrip_nonspace x l Hx) in E. injection E as <- _. exact Hx.
  - exact (rstrip_last _ _ _ E).
Qed.

Lemma strip_idem (s : str) : strip (strip s) = strip s.
Proof.
  unfold strip. destruct (lstrip s) as [|x l] eqn:L; [reflexivity|].
  pose proof (lstrip_head s x l L) as Hx.
  rewrite (rstrip_nonspace x l Hx), (lstrip_fixed x (rstrip l) Hx).
  rewrite <- (rstrip_nonspace x l Hx). apply rstrip_idem.
Qed.

(** ** Tokens kept by the scan *)

Lemma keep_tokens_head (ws : list str) (k : option str) :
  match keep_tokens k ws with
  | [] => True
  | t :: _ => Some t <> k
  end.
Proof.
  revert k. induction ws as [|w ws IH]; intros k; simpl; [exact I|].
  destruct k as [p|]; [|discriminate].
  destruct (eqb w p) eqn:E; [apply IH|].
  apply eqb_neq in E. congruence.
Qed.

Lemma keep_tokens_distinct (ws : list str) (k : option str) :
  adjacent_distinct (keep_tokens k ws).
Proof.
  revert k. induction ws as [|w ws IH]; intros k; [exact I|].
  assert (H : adjacent_distinct (w :: keep_tokens (Some w) ws)).
  { pose proof (keep_tokens_head ws (Some w)) as Hh.
    pose proof (IH (Some w)) as Hd. simpl.
    destruct (keep_tokens (Some w) ws); [exact I|].
    split; [congruence|exact Hd]. }
  simpl. destruct k as [p|]; [|exact H].
  destruct (eqb w p); [apply IH|exact H].
Qed.

Lemma keep_tokens_In (t : str) (ws : list str) (k : option str) :
  (In t (keep_tokens k ws) -> In t ws)
  /\ (In t ws -> In t (keep_tokens k ws) \/ k = Some t).
Proof.
  revert k. induction ws as [|w ws IH]; intros k; simpl; [tauto|].
  destruct (IH k) as [IH1 IH2]. destruct (IH (Some w)) as [IH3 IH4].
  destruct k as [p|].
  - destruct (eqb w p) eqn:E.
    + apply eqb_eq in E. subst p. split; [tauto|].
      intros [->|H]; [now right|auto].
    + simpl. split; [tauto|].
      intros [->|H]; [now left; left|].
      destruct (IH4 H) as [H'|H']; [tauto|].
      injection H' as ->. now left; left.
  - simpl. split; [tauto|].
    intros [->|H]; [now left; left|].
    destruct (IH4 H) as [H'|H']; [tauto|].
    injection H' as ->. now left; left.
Qed.

Lemma keep_tokens_length (ws : list str) (k : option str) :
  length (keep_tokens k ws) <= length ws.
Proof.
  revert k. induction ws as [|w ws IH]; intros k; simpl; [lia|].
  pose proof (IH k). pose proof (IH (Some w)).
  destruct k as [p|]; [destruct (eqb w p)|]; simpl; lia.
Qed.

Lemma keep_tokens_fixed (ws : list str) (k : option str) :
  adjacent_distinct ws ->
  match ws with [] => True | w :: _ => k <> Some w end ->
  keep_tokens k ws = ws.
Proof.
  revert k. induction ws as [|w ws IH]; intros k Hd Hk; [reflexivity|].
  assert (Hrest : keep_tokens (Some w) ws = ws).
  { apply IH.
    - simpl in Hd. destruct ws; [exact I|tauto].
    - simpl in Hd. destruct ws; [exact I|]. intros E. injection E as E.
      destruct Hd as [Hd _]. congruence. }
  simpl. destruct k as [p|]; [|now rewrite Hrest].
  destruct (eqb w p) eqn:E; [|now rewrite Hrest].
  apply eqb_eq in E. congruence.
Qed.

Lemma app_last_inv (a b r : str) (c : char) :
  b <> [] -> a ++ b = r ++ [c] -> exists r', b = r' ++ [c].
Proof.
  intros Hb E. destruct (exists_last Hb) as (r' & c' & ->).
  rewrite app_assoc in E. apply app_inj_tail in E as [_ ->]. eauto.
Qed.

Lemma token_head (w : str) (c : char) (r : str) :
  token w -> w = c :: r -> is_space c = false.
Proof.
  intros [_ H] ->. simpl in H. apply andb_true_iff in H as [H _].
  now apply negb_true_iff.
Qed.

Lemma token_last (w : str) (c : char) (r : str) :
  token w -> w = r ++ [c] -> is_space c = false.
Proof.
  intros [_ H] ->. rewrite forallb_app in H. simpl in H.
  apply andb_true_iff in H as [_ H]. rewrite andb_true_r in H.
  now apply negb_true_iff.
Qed.

Lemma join_nonempty (w : str) (ws : list str) :
  w <> [] -> join [space] (w :: ws) <> [].
Proof.
  intros Hw. destruct ws; simpl; [exact Hw|].
  destruct w; [congruence|discriminate].
Qed.

Lemma join_trimmed (ws : list str) :
  Forall token ws -> trimmed (join [space] ws).
Proof.
  intros H. split.
  - intros c r E. destruct H as [|w ws Hw Hws]; [discriminate|].
    destruct w as [|x w]; [destruct Hw; congruence|].
    assert (c = x) as ->.
    { destruct ws; simpl in E; injection E as <- _; reflexivity. }
    exact (token_head (x :: w) x w Hw eq_refl).
  - induction H as [|w ws Hw Hws IH]; intros c r E.
    + destruct r; discriminate.
    + destruct ws as [|w' ws].
      * exact (token_last w c r Hw E).
      * change (join [space] (w :: w' :: ws))
          with (w ++ [space] ++ join [space] (w' :: ws)) in E.
        rewrite app_assoc in E.
        inversion Hws as [|? ? Hw' _]; subst.
        destruct (app_last_inv _ _ _ _ (join_nonempty w' ws (proj1 Hw')) E)
          as (r' & E').
        exact (IH c r' E').
Qed.

Lemma split_nil_iff (s : str) :
  split s = [] <-> forallb is_space s = true.
Proof.
  pose proof (split_from_concat s []) as Hc. fold (split s) in Hc.
  pose proof (split_tokens s) as Ht. simpl in Hc. split.
  - intros E. rewrite E in Hc. simpl in Hc. clear E Ht.
    induction s as [|c s IH]; [reflexivity|]. simpl in *.
    destruct (is_space c); simpl in *; [now apply IH|discriminate].
  - intros Hs. destruct (split s) as [|w ws]; [reflexivity|].
    inversion Ht as [|? ? [Hw _] _]; subst.
    assert (Hf : filter (fun c => negb (is_space c)) s = []).
    { clear -Hs. induction s as [|c s IH]; [reflexivity|]. simpl in *.
      apply andb_true_iff in Hs as [Hc Hs]. rewrite Hc. simpl. now apply IH. }
    rewrite Hf in Hc. simpl in Hc. apply app_eq_nil in Hc. tauto.
Qed.

(** ** Further properties of [remove_repeated_words] *)

Lemma split_remove_repeated_words (s : str) :
  split (remove_repeated_words s) = keep_tokens None (split s).
Proof.
  rewrite remove_repeated_words_keep. unfold dedupe_adjacent_words.
  apply split_join, keep_tokens_Forall, split_tokens.
Qed.

(** The result of [remove_repeated_words] is in normal form: its words are
    the kept words, it equals the single-space join of its own words, it has
    no whitespace at either end, and no two neighbouring words are equal. *)
Theorem remove_repeated_words_normal_form (s : str) :
  let out := remove_repeated_words s in
  split out = keep_tokens None (split s)
  /\ join [space] (split out) = out
  /\ trimmed out
  /\ adjacent_distinct (split out).
Proof.
  cbv zeta. rewrite remove_repeated_words_keep. unfold dedupe_adjacent_words.
  assert (Hk : Forall token (keep_tokens None (split s)))
    by apply keep_tokens_Forall, split_tokens.
  rewrite (split_join _ Hk).
  split; [reflexivity|]. split; [reflexivity|].
  split; [now apply join_trimmed|apply keep_tokens_distinct].
Qed.

(** [remove_repeated_words] returns the empty string exactly for inputs
    made of whitespace only (the empty input included). *)
Theorem remove_repeated_words_empty_iff (s : str) :
  remove_repeated_words s = [] <-> forallb is_space s = true.
Proof.
  rewrite remove_repeated_words_keep. unfold dedupe_adjacent_words.
  rewrite <- split_nil_iff. split.
  - intros E. pose proof (split_tokens s) as Ht.
    destruct (split s) as [|w ws]; [reflexivity|].
    inversion Ht as [|? ? [Hw _] _]; subst.
    simpl in E. exfalso. exact (join_nonempty w _ Hw E).
  - intros ->. reflexivity.
Qed.

(** Every word of the input still occurs in the result, the result has no
    other words, and never more words than the input. *)
Theorem remove_repeated_words_same_words (s : str) :
  (forall t, In t (split (remove_repeated_words s)) <-> In t (split s))
  /\ length (split (remove_repeated_words s)) <= length (split s).
Proof.
  rewrite split_remove_repeated_words. split.
  - intros t. destruct (keep_tokens_In t (split s) None) as [H1 H2].
    split; [exact H1|]. intros H. destruct (H2 H); [assumption|discriminate].
  - apply keep_tokens_length.
Qed.

(** When no two neighbouring words of the input are equal, nothing is
    removed: the result is the input with its whitespace normalised, so
    words repeated at a distance are kept. *)
Theorem remove_repeated_words_only_adjacent (s : str) :
  adjacent_distinct (split s) ->
  remove_repeated_words s = join [space] (split s).
Proof.
  intros H. rewrite remove_repeated_words_keep. unfold dedupe_adjacent_words.
  rewrite keep_tokens_fixed; [reflexivity|exact H|].
  destruct (split s); [exact I|discriminate].
Qed.

Lemma remove_repeated_words_only_adjacent_witness :
  remove_repeated_words (u " so it goes  so it goes ")
  = join [space] (split (u " so it goes  so it goes ")).
Proof.
  apply remove_repeated_words_only_adjacent.
  vm_compute. repeat split; discriminate.
Defined.

(** ** Further properties of [format_transcription] *)

(** Neither transcript returned by [format_transcription] starts or ends
    with whitespace, whatever the recogniser returned. *)
Theorem format_transcription_trimmed (t : transcription) :
  trimmed (fst (format_transcription t))
  /\ trimmed (snd (format_transcription t)).
Proof. split; apply strip_trimmed. Qed.

Lemma run_loop_ext (f g : chunk -> chunk) (cs : list chunk) (a : acc) :
  (forall b c, loop_body b (f c) = loop_body b (g c)) ->
  run_loop a (map f cs) = run_loop a (map g cs).
Proof.
  intros H. revert a. induction cs as [|c cs IH]; intros a; [reflexivity|].
  simpl. rewrite H. apply IH.
Qed.

(** Whitespace around a chunk's text is irrelevant: trimming every text
    beforehand changes neither transcript. *)
Theorem format_transcription_ignores_padding (cs : list chunk) :
  format_transcription
    (of_chunks (map (fun c => Chunk (strip (text c)) (timestamp c)) cs))
  = format_transcription (of_chunks cs).
Proof.
  unfold format_transcription, of_chunks, get_chunks. simpl chunks.
  rewrite <- (map_id cs) at 3 4.
  rewrite (run_loop_ext (fun c => Chunk (strip (text c)) (timestamp c))
             (fun c => c)); [reflexivity|].
  intros b c. unfold loop_body, format_line. simpl.
  rewrite strip_idem. reflexivity.
Qed.

Lemma contributions_texts (cs1 cs2 : list chunk) (prev : str) :
  map (fun c => strip (text c)) cs1 = map (fun c => strip (text c)) cs2 ->
  contributions prev cs1 = contributions prev cs2.
Proof.
  revert cs2 prev. induction cs1 as [|c1 cs1 IH]; intros [|c2 cs2] prev E;
    try discriminate; [reflexivity|].
  simpl in E. injection E as E1 E2. simpl. rewrite E1.
  destruct (negb _); [f_equal|]; now apply IH.
Qed.

(** The flat transcript depends on the chunks only through their trimmed
    texts: timestamps (present or not) never change it. *)
Theorem flat_transcript_ignores_timestamps (cs1 cs2 : list chunk) :
  map (fun c => strip (text c)) cs1 = map (fun c => strip (text c)) cs2 ->
  snd (format_transcription (of_chunks cs1))
  = snd (format_transcription (of_chunks cs2)).
Proof.
  intros E. unfold format_transcription, of_chunks, get_chunks. simpl.
  rewrite !run_loop_full. simpl.
  now rewrite (contributions_texts cs1 cs2 [] E).
Qed.

Lemma flat_transcript_ignores_timestamps_witness :
  snd (format_transcription
         (of_chunks [Chunk (u " hello ") (Some (f0, f1)); Chunk (u "you") None]))
  = snd (format_transcription
           (of_chunks [Chunk (u "hello") None; Chunk (u "you  ") (Some (f2, f3))])).
Proof.
  apply flat_transcript_ignores_timestamps. reflexivity.
Defined.

Lemma contributions_repeat (pre rest : list chunk) (c c' : chunk) (prev : str) :
  strip (text c') = strip (text c) ->
  contributions prev (pre ++ c :: c' :: rest)
  = contributions prev (pre ++ c :: rest).
Proof.
  intros E. revert prev. induction pre as [|x pre IH]; intros prev.
  - simpl. rewrite E.
    destruct (eqb (strip (text c)) prev) eqn:Ep; simpl.
    + reflexivity.
    + now rewrite eqb_refl.
  - simpl. destruct (negb _); [f_equal|]; apply IH.
Qed.

(** A chunk whose trimmed text equals that of the chunk just before it
    adds nothing to the flat transcript, wherever it stands. *)
Theorem flat_transcript_skips_repeat
    (pre rest : list chunk) (c c' : chunk) :
  strip (text c') = strip (text c) ->
  snd (format_transcription (of_chunks (pre ++ c :: c' :: rest)))
  = snd (format_transcription (of_chunks (pre ++ c :: rest))).
Proof.
  intros E. unfold format_transcription, of_chunks, get_chunks. simpl.
  rewrite !run_loop_full. simpl.
  now rewrite (contributions_repeat pre rest c c' [] E).
Qed.

Lemma flat_transcript_skips_repeat_witness :
  snd (format_transcription
         (of_chunks ([Chunk (u "one") None]
                       ++ Chunk (u "two") (Some (f0, f1))
                       :: Chunk (u " two ") (Some (f1, f2))
                       :: [Chunk (u "three") None])))
  = snd (format_transcription
           (of_chunks ([Chunk (u "one") None]
                         ++ Chunk (u "two") (Some (f0, f1))
                         :: [Chunk (u "three") None]))).
Proof.
  apply flat_transcript_skips_repeat. reflexivity.
Defined.

Lemma contributions_all (cs : list chunk) (prev : str) :
  adjacent_distinct (prev :: map (fun c => strip (text c)) cs) ->
  contributions prev cs = map (fun c => strip (text c)) cs.
Proof.
  revert prev. induction cs as [|c cs IH]; intros prev H; [reflexivity|].
  simpl in H. destruct H as [Hne Hd]. simpl.
  assert (E : eqb (strip (text c)) prev = false)
    by (apply eqb_neq; congruence).
  rewrite E. simpl. f_equal. apply IH. exact Hd.
Qed.

(** When the first trimmed text is not empty and no two neighbouring
    trimmed texts are equal, every chunk contributes: the flat transcript is
    the trimmed sequence of all trimmed texts, one space after each; texts
    repeated at a distance are kept. *)
Theorem flat_transcript_keeps_distinct (cs : list chunk) :
  adjacent_distinct ([] :: map (fun c => strip (text c)) cs) ->
  contributions [] cs = map (fun c => strip (text c)) cs
  /\ snd (format_transcription (of_chunks cs))
     = strip (concat (map (fun c => strip (text c) ++ [space]) cs)).
Proof.
  intros H. pose proof (contributions_all cs [] H) as E. split; [exact E|].
  unfold format_transcription, of_chunks, get_chunks. simpl.
  rewrite run_loop_full. simpl. rewrite E, map_map. reflexivity.
Qed.

Lemma flat_transcript_keeps_distinct_witness :
  let cs := [Chunk (u "yes") None; Chunk (u "no") None; Chunk (u "yes") None] in
  contributions [] cs = map (fun c => strip (text c)) cs
  /\ snd (format_transcription (of_chunks cs))
     = strip (concat (map (fun c => strip (text c) ++ [space]) cs)).
Proof.
  apply flat_transcript_keeps_distinct.
  vm_compute. repeat split; discriminate.
Defined.

Lemma contributions_In (cs : list chunk) (prev t : str) :
  In t (contributions prev cs) -> exists c, In c cs /\ t = strip (text c).
Proof.
  revert prev. induction cs as [|c cs IH]; intros prev; simpl; [tauto|].
  destruct (negb _); simpl.
  - intros [<-|H]; [exists c; auto|].
    destruct (IH _ H) as (c' & Hc' & ->). exists c'. auto.
  - intros H. destruct (IH _ H) as (c' & Hc' & ->). exists c'. auto.
Qed.

Lemma contributions_nil (cs : list chunk) :
  contributions [] cs = [] -> Forall (fun c => strip (text c) = []) cs.
Proof.
  induction cs as [|c cs IH]; [constructor|]. simpl.
  destruct (eqb (strip (text c)) []) eqn:E; simpl; [|discriminate].
  intros H. constructor; [now apply eqb_eq|now apply IH].
Qed.

(** The formatted transcript is empty only for an empty chunk list, while
    the flat transcript is empty exactly when every chunk's text is empty or
    whitespace. *)
Theorem transcripts_empty_iff (cs : list chunk) :
  (fst (format_transcription (of_chunks cs)) = [] <-> cs = [])
  /\ (snd (format_transcription (of_chunks cs)) = []
      <-> Forall (fun c => strip (text c) = []) cs).
Proof.
  split.
  - split; [|intros ->; reflexivity].
    destruct cs as [|c0 cs0] using rev_ind; [reflexivity|].
    rewrite formatted_snoc. destruct (rstrip_format_line c0) as (r & ->).
    intros E. apply app_eq_nil in E as [_ E]. discriminate.
  - unfold format_transcription, of_chunks, get_chunks. simpl.
    rewrite run_loop_full. simpl. split.
    + intros E. apply contributions_nil.
      pose proof (contributions_head cs []) as Hh.
      destruct (contributions [] cs) as [|t ts] eqn:Hc; [reflexivity|exfalso].
      destruct (contributions_In cs [] t) as (c & _ & Ht);
        [rewrite Hc; now left|].
      destruct t as [|x t]; [congruence|].
      assert (Hx : is_space x = false).
      { destruct (strip_trimmed (text c)) as [Hhd _].
        apply (Hhd x t). now rewrite <- Ht. }
      simpl in E. unfold strip in E.
      rewrite (lstrip_fixed x _ Hx), (rstrip_nonspace x _ Hx) in E.
      discriminate.
    + intros H. rewrite <- (app_nil_r cs).
      now rewrite contributions_leading_blank.
Qed.

(** ** The flows, case by case *)

Lemma mem_create_eq (p q : path) (l : list path) :
  mem q (if mem p l then l else p :: l) = String.eqb q p || mem q l.
Proof.
  destruct (mem p l) eqn:E.
  - destruct (String.eqb q p) eqn:Eq; [|reflexivity].
    apply String.eqb_eq in Eq. subst q. exact E.
  - reflexivity.
Qed.

Section Cases.

Variable env : collaborators.
Variable video_url : string.
Variable files : list path.

Lemma upload_write_raises (e : exn) :
  buffer_write env = Some e ->
  transcribe_upload env (start files)
  = (Raised e,
     World (if mem (temp_name env) files then files
            else temp_name env :: files)
           [temp_name env] [] [] [] []).
Proof.
  intros Hw. unfold transcribe_upload, bind, create_file, external.
  simpl. rewrite Hw. reflexivity.
Qed.

(** Every run of the upload flow is one of three. *)
Lemma upload_cases (P : outcome unit * world -> Prop) :
  (forall e, buffer_write env = Some e ->
     P (Raised e,
        World (if mem (temp_name env) files then files
               else temp_name env :: files)
              [temp_name env] [] [] [] [])) ->
  (forall e, buffer_write env = None ->
     recogniser env (temp_name env) = inl e ->
     P (Raised e,
        World (if mem (temp_name env) files then files
               else temp_name env :: files)
              [temp_name env] [] [temp_name env] [] [])) ->
  (forall t, buffer_write env = None ->
     recogniser env (temp_name env) = inr t ->
     P (Returned tt,
        World (delete (temp_name env)
                 (if mem (temp_name env) files then files
                  else temp_name env :: files))
              [temp_name env] [temp_name env] [temp_name env] []
              [format_transcription t])) ->
  P (transcribe_upload env (start files)).
Proof.
  intros H1 H2 H3.
  destruct (buffer_write env) as [e|] eqn:Hw.
  { rewrite (upload_write_raises e Hw). now apply H1. }
  destruct (recogniser env (temp_name env)) as [e|t] eqn:Hr.
  - rewrite (upload_recogniser_raises env files e Hw Hr). now apply H2.
  - rewrite (upload_success env files t Hw Hr). now apply H3.
Qed.



End Cases.

(** ** Further properties of the flows of [main] *)



(** The recogniser is invoked at most once per run, on the run's own audio
    file, and in the YouTube flow only after both the download and the WAV
    file exist. *)
Theorem recogniser_invoked_at_most_once
    (env : collaborators) (video_url : string) (files : list path) :
  let up := snd (transcribe_upload env (start files)) in
  let yt := snd (transcribe_youtube env video_url (start files)) in
  (transcribed up = [] \/ transcribed up = [temp_name env])
  /\ (transcribed yt = []
      \/ transcribed yt = ["temp_audio.wav"%string]
         /\ created yt = [default_output_path; "temp_audio.wav"%string]
         /\ clip_open env default_output_path = None
         /\ clip_write env "temp_audio.wav" = None).
Proof.
  cbv zeta. split.
  - apply upload_cases; intros; simpl; auto.
  - unfold_youtube.
    destruct (ydl_download env video_url default_output_path) as [[m|m]|];
      simpl; auto.
    destruct (clip_open env default_output_path) as [e|]; simpl; auto.
    destruct (clip_write env "temp_audio.wav") as [e|]; simpl.
    + destruct (clip_write_partial env); simpl; auto.
    + destruct (recogniser env "temp_audio.wav") as [e|t]; simpl; auto.
      repeat match goal with
             | |- context [if ?b then _ else _] => destruct b; simpl
             end; auto.
Qed.


(** In the upload flow a failure is never reported through [st.error]: the
    run either shows one pair of transcripts and removes its temporary file,
    or the exception leaves the flow with nothing shown, no [os.remove] call
    made and the temporary file still on disk. *)
Theorem upload_flow_succeeds_or_leaks
    (env : collaborators) (files : list path) :
  let r := transcribe_upload env (start files) in
  errors (snd r) = []
  /\ ((fst r = Returned tt
       /\ length (delivered (snd r)) = 1
       /\ removed (snd r) = [temp_name env]
       /\ mem (temp_name env) (fs (snd r)) = false)
      \/ ((exists e, fst r = Raised e)
          /\ delivered (snd r) = []
          /\ removed (snd r) = []
          /\ mem (temp_name env) (fs (snd r)) = true)).
Proof.
  cbv zeta. apply upload_cases; intros; simpl; (split; [reflexivity|]).
  - right. rewrite mem_create. eauto.
  - right. rewrite mem_create. eauto.
  - left. rewrite mem_delete_same. auto.
Qed.


(** After a run of the YouTube flow in which every stage succeeds, the disk
    holds the files it held before except "temp_audio.mp4" and
    "temp_audio.wav": files of these names that existed before the run are
    deleted with the run's own. *)
Theorem youtube_success_disk
    (env : collaborators) (video_url : string) (files : list path)
    (q : path) :
  all_succeed env video_url ->
  mem q (fs (snd (transcribe_youtube env video_url (start files))))
  = negb (String.eqb q "temp_audio.mp4")
    && negb (String.eqb q "temp_audio.wav") && mem q files.
Proof.
  intros (_ & Hd & Ho & Hc & Hr).
  destruct (Hr "temp_audio.wav"%string) as (t & Ht).
  rewrite (youtube_success env video_url files t (Hd _) (Ho _) (Hc _) Ht).
  simpl snd. simpl fs. rewrite !mem_delete, !mem_create_eq.
  rewrite (String.eqb_sym "temp_audio.wav" q).
  rewrite (String.eqb_sym default_output_path q).
  change default_output_path with "temp_audio.mp4"%string.
  destruct (String.eqb q "temp_audio.mp4"), (String.eqb q "temp_audio.wav");
    reflexivity.
Qed.

Lemma youtube_success_disk_witness :
  mem "temp_audio.wav"
      (fs (snd (transcribe_youtube (healthy no_transcript) "https://youtu.be/x"
                  (start ["temp_audio.wav"%string; "notes.txt"%string]))))
  = negb (String.eqb "temp_audio.wav" "temp_audio.mp4")
    && negb (String.eqb "temp_audio.wav" "temp_audio.wav")
    && mem "temp_audio.wav" ["temp_audio.wav"%string; "notes.txt"%string].
Proof.
  apply (youtube_success_disk (healthy no_transcript) "https://youtu.be/x"
           ["temp_audio.wav"%string; "notes.txt"%string] "temp_audio.wav").
  unfold all_succeed. simpl. repeat split; intros; eauto.
Defined.

(** ** [main] *)

(** When no button fires (no file uploaded or its button not pressed, and
    an empty link or its button not pressed), [main] changes nothing: no
    file is created and the recogniser is not invoked. *)
Theorem main_idle
    (env : collaborators) (uploaded_file transcribe_audio : bool)
    (video_url : string) (transcribe_video : bool) (w : world) :
  uploaded_file && transcribe_audio = false ->
  negb (String.eqb video_url "") && transcribe_video = false ->
  main env uploaded_file transcribe_audio video_url transcribe_video w
  = (Returned tt, w).
Proof.
  intros H1 H2. unfold main, bind.
  destruct uploaded_file, transcribe_audio; try discriminate H1;
    destruct (String.eqb video_url ""), transcribe_video;
    try discriminate H2; reflexivity.
Qed.

Lemma main_idle_witness :
  main recogniser_fails true false "" true (start ["notes.txt"%string])
  = (Returned tt, start ["notes.txt"%string]).
Proof.
  apply main_idle; reflexivity.
Defined.

(** An exception of the upload flow ends [main]: the YouTube tab of the
    same execution is not run, whatever its link and button. *)
Theorem main_upload_failure_skips_video
    (env : collaborators) (video_url : string) (transcribe_video : bool)
    (w : world) (e : exn) :
  fst (transcribe_upload env w) = Raised e ->
  main env true true video_url transcribe_video w = transcribe_upload env w.
Proof.
  intros H. unfold main, bind.
  destruct (transcribe_upload env w) as [[[]|e'] w']; [discriminate H|].
  reflexivity.
Qed.

Lemma main_upload_failure_skips_video_witness :
  main recogniser_fails true true "https://youtu.be/x" true (start [])
  = transcribe_upload recogniser_fails (start []).
Proof.
  apply (main_upload_failure_skips_video recogniser_fails
           "https://youtu.be/x" true (start [])
           (OtherError "Soundfile is either not in the correct format or is malformed")).
  reflexivity.
Defined.

